(** * Command_Parser: the UART command interface of [my_header.h]

    The header declares two enumerations, a result structure and the
    prototype of [parse_uart].  The first part of this file embeds the
    declarations as they are written; the second part models the parser
    behind the prototype, whose body is not part of the header. *)

From Stdlib Require Import ZArith Lia Strings.Byte.
From stdpp Require Import base decidable option list finite.

Local Open Scope Z_scope.

(** ** The declarations of the header *)

Module Header.

(** [typedef enum Led { Led1, Led2, Led3, Led4 } Led;] *)
Inductive Led : Set := Led1 | Led2 | Led3 | Led4.

(** [typedef enum LedState { On, Off } LedState;] *)
Inductive LedState : Set := On | Off.

(** [typedef struct Command { bool success; enum Led led;
    enum LedState state; } Command;] *)
Record Command : Set := mkCommand {
  success : bool;
  led : Led;
  state : LedState
}.

#[export] Instance Led_eq_dec : EqDecision Led.
Proof. solve_decision. Defined.

#[export] Instance LedState_eq_dec : EqDecision LedState.
Proof. solve_decision. Defined.

#[export] Instance Command_eq_dec : EqDecision Command.
Proof. solve_decision. Defined.

(** The enumerators in the order of their declaration. *)
Definition Led_enumerators : list Led := [Led1; Led2; Led3; Led4].
Definition LedState_enumerators : list LedState := [On; Off].

#[export, refine] Instance Led_finite : Finite Led :=
  {| enum := Led_enumerators |}.
Proof.
  - by apply (bool_decide_unpack _).
  - by intros []; apply (bool_decide_unpack _).
Defined.

#[export, refine] Instance LedState_finite : Finite LedState :=
  {| enum := LedState_enumerators |}.
Proof.
  - by apply (bool_decide_unpack _).
  - by intros []; apply (bool_decide_unpack _).
Defined.

(** The members of [struct Command], as a tuple and back. *)
Definition Command_fields (c : Command) : bool * Led * LedState :=
  (success c, led c, state c).

Definition Command_of_fields (t : bool * Led * LedState) : Command :=
  let '(b, l, s) := t in mkCommand b l s.

(** *** Values of the enumeration constants

    A C enumerator list gives each constant either an explicit value or,
    when it has none, the value of the previous constant plus one; the
    first constant without a value is 0.  Neither enumeration of the
    header writes a value. *)
Definition enum_decl (A : Type) : Type := list (A * option Z).

Fixpoint enum_values {A : Type} (next : Z) (d : enum_decl A) : list (A * Z) :=
  match d with
  | [] => []
  | (x, None) :: d' => (x, next) :: enum_values (next + 1) d'
  | (x, Some v) :: d' => (x, v) :: enum_values (v + 1) d'
  end.

Definition Led_decl : enum_decl Led :=
  [(Led1, None); (Led2, None); (Led3, None); (Led4, None)].

Definition LedState_decl : enum_decl LedState :=
  [(On, None); (Off, None)].

(** The value of a constant, and the constant of a value, under a
    declaration. *)
Definition value_of {A : Type} `{EqDecision A} (d : enum_decl A) (x : A) : option Z :=
  (λ r, r.2.2) <$> list_find (λ p, p.1 = x) (enum_values 0 d).

Definition constant_of {A : Type} (d : enum_decl A) (v : Z) : option A :=
  (λ r, r.2.1) <$> list_find (λ p, p.2 = v) (enum_values 0 d).

Definition Led_to_Z (l : Led) : option Z := value_of Led_decl l.
Definition LedState_to_Z (s : LedState) : option Z := value_of LedState_decl s.
Definition Led_of_Z (v : Z) : option Led := constant_of Led_decl v.
Definition LedState_of_Z (v : Z) : option LedState := constant_of LedState_decl v.

(** A [bool] member holds 0 for [false] and 1 for [true]. *)
Definition bool_of_Z (v : Z) : option bool :=
  if decide (v = 0) then Some false
  else if decide (v = 1) then Some true
  else None.

(** The [Command] whose members hold the given integer values. *)
Definition Command_of_Z (b l s : Z) : option Command :=
  b' ← bool_of_Z b; l' ← Led_of_Z l; s' ← LedState_of_Z s;
  Some (mkCommand b' l' s').

(** A zero-initialised object: every member is 0. *)
Definition zero_Command : option Command := Command_of_Z 0 0 0.

(** *** The object of type [struct Command]

    In C the members [led] and [state] are integer objects of the
    enumerations' types: they can hold the value of an enumerator, and
    they can hold another integer (the types represent at least
    0 .. 127 on every implementation).  [success] is a [bool]. *)
Record Command_object : Set := mkObject {
  success_v : bool;
  led_v : Z;
  state_v : Z
}.

(** The [Command] an object denotes, when both enumeration members hold
    the value of an enumerator. *)
Definition read_Command (o : Command_object) : option Command :=
  l ← Led_of_Z (led_v o); s ← LedState_of_Z (state_v o);
  Some (mkCommand (success_v o) l s).

(** *** [uint32_t] and the prototype

    [struct Command parse_uart(const uint8_t *input, uint32_t length);]
    An argument for [length] is converted to [uint32_t], that is reduced
    modulo 2^32, before the callee sees it. *)
Definition UINT32_MAX : Z := 2 ^ 32 - 1.

Definition to_uint32 (z : Z) : Z := z mod 2 ^ 32.

Definition call_parse_uart {R : Type} (callee : list byte → Z → R)
    (input : list byte) (length : Z) : R :=
  callee input (to_uint32 length).

End Header.

(** ** The parser behind the prototype *)

Module Parser.
Import Header.

(** What a call can observe: the bytes that start at [input], and a log
    of the offsets at which the buffer was read, latest first. *)
Record World : Type := mkWorld {
  buffer : list byte;
  reads : list nat
}.

(** A computation returns a value or faults (a read outside the memory
    at [input]), and leaves a world behind in both cases. *)
Definition M (A : Type) : Type := World → option A * World.

#[export] Instance M_ret : MRet M := λ A a w, (Some a, w).

#[export] Instance M_bind : MBind M := λ A B f m w,
  match m w with
  | (Some a, w') => f a w'
  | (None, w') => (None, w')
  end.

(** [input[i]]: the read is logged, in range or not. *)
Definition load (i : nat) : M byte :=
  λ w, (buffer w !! i, mkWorld (buffer w) (i :: reads w)).

(** Modelled from the spec: the wire format, which the header leaves
    open.  A scheme says which frames denote which [(Led, LedState)] pair
    and what the [led] and [state] members hold when parsing fails (the
    spec leaves them unspecified). *)
Record Scheme : Type := mkScheme {
  decode : list byte → option (Led * LedState);
  unspecified : Led * LedState
}.

(** Modelled from the spec: the two results of [parse_uart].  On success
    [led] and [state] hold the decoded pair; on failure [success] is
    [false] and the other members are whatever the scheme leaves there. *)
Definition accept (p : Led * LedState) : Command := mkCommand true p.1 p.2.

Definition reject (sc : Scheme) : Command :=
  mkCommand false (unspecified sc).1 (unspecified sc).2.

(** Modelled from the spec: the body of [parse_uart] consumes the frame,
    the bytes at offsets [0 .. length - 1] of the buffer. *)
Fixpoint read_frame (i n : nat) : M (list byte) :=
  match n with
  | O => mret []
  | S n' => b ← load i; bs ← read_frame (S i) n'; mret (b :: bs)
  end.

(** Modelled from the spec: the body of [parse_uart], which is not in
    the header.  A frame of length 0 is rejected; any other frame is read
    and decoded under the scheme, and a frame that denotes no pair is
    rejected through the [success] member. *)
Definition parse_uart_body (sc : Scheme) (length : Z) : M Command :=
  if decide (length = 0) then mret (reject sc)
  else
    frame ← read_frame 0 (Z.to_nat length);
    mret (from_option accept (reject sc) (decode sc frame)).

(** Modelled from the spec: a call of [parse_uart] through the prototype,
    on the bytes at [input] and with an empty log. *)
Definition parse_uart (sc : Scheme) (input : list byte) (length : Z)
    : option Command * World :=
  call_parse_uart (λ inp n, parse_uart_body sc n (mkWorld inp [])) input length.

(** The frame a call is given: the first [length] bytes at [input]. *)
Definition frame_of (input : list byte) (length : Z) : list byte :=
  take (Z.to_nat (to_uint32 length)) input.

(** The caller's side of the contract: [length] bytes are really there. *)
Definition valid_buffer (input : list byte) (length : Z) : Prop :=
  to_uint32 length ≤ Z.of_nat (List.length input).

#[export] Instance byte_eq_decision : EqDecision byte := byte_eq_dec.

(** The eight [(Led, LedState)] pairs. *)
Definition all_pairs : list (Led * LedState) :=
  l ← Led_enumerators; s ← LedState_enumerators; [(l, s)].

(** Modelled from the spec: the scheme an encoding function fixes.  A
    frame denotes the pair it is the encoding of (the first one, should
    two pairs share a frame), and no pair otherwise. *)
Definition decode_by (encode : Led → LedState → list byte)
    (frame : list byte) : option (Led * LedState) :=
  (λ r, r.2) <$> list_find (λ p, encode p.1 p.2 = frame) all_pairs.

Definition scheme_of_encoding (encode : Led → LedState → list byte)
    (u : Led * LedState) : Scheme :=
  mkScheme (decode_by encode) u.


Definition opcode_decode (frame : list byte) : option (Led * LedState) :=
  match frame with
  | [x00] => Some (Led1, On) | [x01] => Some (Led1, Off)
  | [x02] => Some (Led2, On) | [x03] => Some (Led2, Off)
  | [x04] => Some (Led3, On) | [x05] => Some (Led3, Off)
  | [x06] => Some (Led4, On) | [x07] => Some (Led4, Off)
  | _ => None
  end.

Definition opcode_scheme : Scheme := mkScheme opcode_decode (Led1, On).


Definition shared_frame_encode (l : Led) (s : LedState) : list byte := [x00].

End Parser.

Import Header Parser.

(** ** Facts about the declarations *)

(** Constants declared without a value count up from the starting value. *)
Lemma enum_values_implicit {A : Type} (xs : list A) (next : Z) :
  enum_values next ((λ x, (x, None)) <$> xs)
  = zip xs (seqZ next (Z.of_nat (List.length xs))).
Proof.
  revert next. induction xs as [|x xs IH]; intros next; [done|].
  cbn [fmap list_fmap enum_values List.length].
  rewrite IH, Nat2Z.inj_succ. rewrite (seqZ_cons next) by lia.
  cbn. do 3 f_equal; lia.
Qed.

Lemma to_uint32_range (z : Z) : 0 ≤ to_uint32 z ≤ UINT32_MAX.
Proof.
  unfold to_uint32, UINT32_MAX.
  pose proof (Z.mod_pos_bound z (2 ^ 32)). lia.
Qed.

Lemma to_uint32_small (z : Z) : 0 ≤ z ≤ UINT32_MAX → to_uint32 z = z.
Proof. unfold to_uint32, UINT32_MAX. intros H. apply Z.mod_small. lia. Qed.

Lemma to_uint32_periodic (z k : Z) : to_uint32 (z + k * 2 ^ 32) = to_uint32 z.
Proof. unfold to_uint32. apply Z_mod_plus_full. Qed.

(** C7. The data model has the declared shape: [Led] has exactly the four
    values [Led1] .. [Led4], [LedState] exactly the two values [On] and
    [Off], and a [Command] is exactly a success flag, an [Led] and an
    [LedState]. *)
Theorem data_model_shape :
  (∀ l : Led, l = Led1 ∨ l = Led2 ∨ l = Led3 ∨ l = Led4)
  ∧ NoDup [Led1; Led2; Led3; Led4] ∧ card Led = 4%nat
  ∧ (∀ s : LedState, s = On ∨ s = Off)
  ∧ NoDup [On; Off] ∧ card LedState = 2%nat
  ∧ (∀ c : Command, Command_of_fields (Command_fields c) = c)
  ∧ (∀ t : bool * Led * LedState, Command_fields (Command_of_fields t) = t).
Proof.
  split_and!.
  - intros []; auto.
  - exact (NoDup_enum Led).
  - reflexivity.
  - intros []; auto.
  - exact (NoDup_enum LedState).
  - reflexivity.
  - by intros [].
  - by intros [[b l] s].
Qed.

(** C8. The enumerators are numbered from 0 in the order of declaration:
    [Led1] .. [Led4] are 0 .. 3, [On] is 0 and [Off] is 1; so the
    zero-initialised [Command] is [{false, Led1, On}]. *)
Theorem enumerator_values :
  enum_values 0 Led_decl = [(Led1, 0); (Led2, 1); (Led3, 2); (Led4, 3)]
  ∧ enum_values 0 LedState_decl = [(On, 0); (Off, 1)]
  ∧ (Led_to_Z Led1 = Some 0 ∧ Led_to_Z Led2 = Some 1
     ∧ Led_to_Z Led3 = Some 2 ∧ Led_to_Z Led4 = Some 3)
  ∧ (LedState_to_Z On = Some 0 ∧ LedState_to_Z Off = Some 1)
  ∧ zero_Command = Some (mkCommand false Led1 On).
Proof.
  split_and!; reflexivity.
Qed.

(** C10. The [length] argument is a [uint32_t]: whatever integer the
    caller writes, the callee receives its residue modulo 2^32, which lies
    between 0 and 2^32 - 1; lengths in that range arrive unchanged. *)
Theorem length_is_uint32 :
  ∀ (R : Type) (callee : list byte → Z → R) (input : list byte) (length : Z),
    UINT32_MAX = 4294967295
    ∧ 0 ≤ to_uint32 length ≤ UINT32_MAX
    ∧ call_parse_uart callee input length = callee input (length mod 2 ^ 32)
    ∧ (∀ k : Z, call_parse_uart callee input (length + k * 2 ^ 32)
                = call_parse_uart callee input length)
    ∧ (0 ≤ length ≤ UINT32_MAX → call_parse_uart callee input length
                                  = callee input length).
Proof.
  intros R callee input length.
  split; [|split; [|split; [|split]]].
  - reflexivity.
  - apply to_uint32_range.
  - reflexivity.
  - intros k. unfold call_parse_uart. by rewrite to_uint32_periodic.
  - intros H. unfold call_parse_uart. by rewrite to_uint32_small.
Qed.

(** ** Facts about the parser *)

Section ReadFrame.

Implicit Types (i n : nat) (w : World).

(** One turn of the loop, with the monad unfolded. *)
Lemma read_frame_step i n w :
  read_frame i (S n) w
  = let w1 := mkWorld (buffer w) (i :: reads w) in
    match buffer w !! i with
    | Some b =>
        match read_frame (S i) n w1 with
        | (Some bs, w2) => (Some (b :: bs), w2)
        | (None, w2) => (None, w2)
        end
    | None => (None, w1)
    end.
Proof.
  cbn [read_frame]. unfold mbind, M_bind, load. cbn.
  destruct (buffer w !! i); [|done].
  by destruct (read_frame (S i) n _) as [[bs|] w2].
Qed.

(** Reading never changes the buffer. *)
Lemma read_frame_buffer i n w : buffer (read_frame i n w).2 = buffer w.
Proof.
  revert i w. induction n as [|n IH]; intros i w; [done|].
  rewrite read_frame_step. cbn zeta.
  destruct (buffer w !! i); [|done].
  specialize (IH (S i) (mkWorld (buffer w) (i :: reads w))).
  by destruct (read_frame (S i) n _) as [[bs|] w2].
Qed.

(** The log grows by offsets of the frame only. *)
Lemma read_frame_reads i n w :
  ∃ new : list nat,
    reads (read_frame i n w).2 = new ++ reads w
    ∧ Forall (λ j, (i ≤ j < i + n)%nat) new.
Proof.
  revert i w. induction n as [|n IH]; intros i w.
  { by exists []. }
  rewrite read_frame_step. cbn zeta.
  destruct (buffer w !! i).
  - destruct (IH (S i) (mkWorld (buffer w) (i :: reads w))) as (new & Hr & Hn).
    exists (new ++ [i]). split.
    + destruct (read_frame (S i) n _) as [[bs|] w2]; cbn in *;
        by rewrite Hr, <- app_assoc.
    + apply Forall_app. split.
      * eapply Forall_impl; [exact Hn|]. cbn. lia.
      * apply Forall_singleton. lia.
  - exists [i]. split; [done|]. apply Forall_singleton. lia.
Qed.

(** When the frame lies inside the buffer, the loop returns it. *)
Lemma read_frame_value i n w :
  (i + n ≤ List.length (buffer w))%nat →
  (read_frame i n w).1 = Some (take n (drop i (buffer w))).
Proof.
  revert i w. induction n as [|n IH]; intros i w Hin; [done|].
  rewrite read_frame_step. cbn zeta.
  destruct (lookup_lt_is_Some_2 (buffer w) i) as [b Hb]; [lia|].
  rewrite Hb.
  specialize (IH (S i) (mkWorld (buffer w) (i :: reads w))).
  cbn [buffer] in IH.
  destruct (read_frame (S i) n _) as [[bs|] w2]; cbn in *.
  - rewrite (drop_S _ _ _ Hb). cbn.
    assert (Some bs = Some (take n (drop (S i) (buffer w)))) as [= ->]
      by (apply IH; lia).
    done.
  - discriminate IH. lia.
Qed.

(** When it does not, the loop faults. *)
Lemma read_frame_fault i n w :
  (i ≤ List.length (buffer w) < i + n)%nat → (read_frame i n w).1 = None.
Proof.
  revert i w. induction n as [|n IH]; intros i w Hout; [lia|].
  rewrite read_frame_step. cbn zeta.
  destruct (buffer w !! i) as [b|] eqn:Hb; [|done].
  apply lookup_lt_Some in Hb.
  specialize (IH (S i) (mkWorld (buffer w) (i :: reads w))).
  cbn [buffer] in IH.
  destruct (read_frame (S i) n _) as [[bs|] w2]; cbn in *; [|done].
  discriminate IH. lia.
Qed.


End ReadFrame.

Section ParseUart.

Context (sc : Scheme).
Implicit Types (input : list byte) (length : Z) (w : World).

Lemma parse_uart_body_buffer length w :
  buffer (parse_uart_body sc length w).2 = buffer w.
Proof.
  unfold parse_uart_body. case_decide; [done|].
  unfold mbind, M_bind.
  pose proof (read_frame_buffer 0 (Z.to_nat length) w) as Hb.
  by destruct (read_frame 0 _ w) as [[frame|] w2].
Qed.

Lemma parse_uart_body_reads length w :
  0 ≤ length →
  ∃ new : list nat,
    reads (parse_uart_body sc length w).2 = new ++ reads w
    ∧ Forall (λ i, Z.of_nat i < length) new.
Proof.
  intros Hpos. unfold parse_uart_body. case_decide.
  { by exists []. }
  unfold mbind, M_bind.
  destruct (read_frame_reads 0 (Z.to_nat length) w) as (new & Hr & Hn).
  exists new. split.
  - by destruct (read_frame 0 _ w) as [[frame|] w2].
  - eapply Forall_impl; [exact Hn|]. cbn. lia.
Qed.


(** The value of a call on a buffer that holds [length] bytes. *)
Lemma parse_uart_value input length :
  valid_buffer input length →
  (parse_uart sc input length).1
  = Some (if decide (to_uint32 length = 0) then reject sc
          else from_option accept (reject sc)
                 (decode sc (frame_of input length))).
Proof.
  unfold valid_buffer, parse_uart, call_parse_uart, parse_uart_body, frame_of.
  intros Hv. case_decide; [done|].
  unfold mbind, M_bind.
  pose proof (read_frame_value 0 (Z.to_nat (to_uint32 length))
                (mkWorld input [])) as Hf.
  cbn [buffer] in Hf. rewrite drop_0 in Hf.
  destruct (read_frame 0 _ _) as [[frame|] w2]; cbn in *.
  - assert (Some frame = Some (take (Z.to_nat (to_uint32 length)) input))
      as [= ->] by (apply Hf; lia).
    done.
  - discriminate Hf. lia.
Qed.

(** A call on a buffer shorter than [length] faults in this model. *)
Lemma parse_uart_fault input length :
  ¬ valid_buffer input length → (parse_uart sc input length).1 = None.
Proof.
  unfold valid_buffer, parse_uart, call_parse_uart, parse_uart_body.
  intros Hv. pose proof (to_uint32_range length) as Hr.
  case_decide; [lia|].
  unfold mbind, M_bind.
  pose proof (read_frame_fault 0 (Z.to_nat (to_uint32 length))
                (mkWorld input [])) as Hf.
  cbn [buffer] in Hf.
  destruct (read_frame 0 _ _) as [[frame|] w2]; cbn in *; [|done].
  discriminate Hf. lia.
Qed.

Lemma parse_uart_buffer input length :
  buffer (parse_uart sc input length).2 = input.
Proof. apply (parse_uart_body_buffer _ (mkWorld input [])). Qed.

Lemma parse_uart_reads input length :
  Forall (λ i, Z.of_nat i < to_uint32 length)
    (reads (parse_uart sc input length).2).
Proof.
  destruct (parse_uart_body_reads (to_uint32 length) (mkWorld input []))
    as (new & Hr & Hn); [apply to_uint32_range|].
  unfold parse_uart, call_parse_uart.
  rewrite Hr. cbn [reads]. by rewrite app_nil_r.
Qed.

End ParseUart.

(** ** The properties of [parse_uart] *)

(** An empty frame is rejected under every scheme, also under one that
    would decode it: the frames of an encoding have to be non-empty. *)
Lemma parse_uart_empty_frame (sc : Scheme) (guard : list byte) :
  (parse_uart sc ([] ++ guard) (Z.of_nat (List.length (@nil byte)))).1
  = Some (reject sc).
Proof. reflexivity. Qed.


(** A frame of exactly 2^32 bytes is announced as length 0 and rejected. *)
Lemma parse_uart_oversize_frame (sc : Scheme) (frame guard : list byte) :
  Z.of_nat (List.length frame) = 2 ^ 32 →
  (parse_uart sc (frame ++ guard) (Z.of_nat (List.length frame))).1
  = Some (reject sc).
Proof.
  intros Hlen. unfold parse_uart, call_parse_uart. rewrite Hlen.
  change (to_uint32 (2 ^ 32)) with 0. reflexivity.
Qed.



(** With a shared frame the parser answers with the first pair of that
    frame, not with the pair that was encoded. *)
Lemma parse_uart_shared_frame :
  (parse_uart (scheme_of_encoding shared_frame_encode (Led4, Off))
     (shared_frame_encode Led2 Off)
     (Z.of_nat (List.length (shared_frame_encode Led2 Off)))).1
  = Some (mkCommand true Led1 On).
Proof. reflexivity. Qed.




(** C2. A buffer that holds [length] bytes which denote no pair (the
    frame is empty, or the scheme does not recognise it) makes
    [parse_uart] return, normally, a [Command] with [success == false]. *)
Theorem parse_uart_rejects_unrecognized
    (sc : Scheme) (input : list byte) (length : Z) :
  valid_buffer input length →
  to_uint32 length = 0 ∨ decode sc (frame_of input length) = None →
  ∃ c : Command,
    (parse_uart sc input length).1 = Some c ∧ success c = false.
Proof.
  intros Hv Hbad. rewrite parse_uart_value by done.
  eexists. split; [reflexivity|].
  case_decide; [done|].
  destruct Hbad as [?| ->]; done.
Qed.

(** The opcode scheme knows no opcode [0x2a]. *)
Lemma parse_uart_rejects_unrecognized_witness :
  ∃ c : Command,
    (parse_uart opcode_scheme [x2a; x05] 1).1 = Some c ∧ success c = false.
Proof.
  apply (parse_uart_rejects_unrecognized opcode_scheme [x2a; x05] 1).
  - vm_compute. discriminate.
  - right. reflexivity.
Defined.

(** C3. With [length == 0], [parse_uart] returns a [Command] with
    [success == false], for every buffer (an empty one included) and
    without reading it. *)
Theorem parse_uart_zero_length (sc : Scheme) (input : list byte) :
  ∃ c : Command,
    parse_uart sc input 0 = (Some c, mkWorld input []) ∧ success c = false.
Proof. by exists (reject sc). Qed.

(** C4. Every offset at which [parse_uart] reads the buffer is below
    [length]; so on a buffer that holds [length] bytes every read is in
    range and the call returns a [Command]. *)
Theorem parse_uart_reads_in_bounds
    (sc : Scheme) (input : list byte) (length : Z) :
  Forall (λ i, Z.of_nat i < to_uint32 length)
    (reads (parse_uart sc input length).2)
  ∧ (valid_buffer input length →
     Forall (λ i, is_Some (input !! i)) (reads (parse_uart sc input length).2)
     ∧ is_Some (parse_uart sc input length).1).
Proof.
  split; [apply parse_uart_reads|].
  intros Hv. split.
  - eapply Forall_impl; [apply parse_uart_reads|].
    cbn. intros i Hi. apply lookup_lt_is_Some_2.
    unfold valid_buffer in Hv. lia.
  - rewrite parse_uart_value by done. eauto.
Qed.


(** C6. [parse_uart] has no side effect: the buffer is the same after the
    call as before, in whatever world the body runs, and the only trace
    of the call besides its result is the log of its reads. *)
Theorem parse_uart_no_side_effect
    (sc : Scheme) (input : list byte) (length : Z) :
  buffer (parse_uart sc input length).2 = input
  ∧ (∀ w : World,
       buffer (parse_uart_body sc (to_uint32 length) w).2 = buffer w
       ∧ ∃ new : list nat,
           reads (parse_uart_body sc (to_uint32 length) w).2 = new ++ reads w).
Proof.
  split; [apply parse_uart_buffer|].
  intros w. split; [apply parse_uart_body_buffer|].
  destruct (parse_uart_body_reads sc (to_uint32 length) w) as (new & Hr & _);
    [apply to_uint32_range|].
  by exists new.
Qed.

(** ** Enumerators and member values, both ways *)

Lemma Led_of_Z_cases (v : Z) :
  Led_of_Z v
  = if decide (v = 0) then Some Led1
    else if decide (v = 1) then Some Led2
    else if decide (v = 2) then Some Led3
    else if decide (v = 3) then Some Led4
    else None.
Proof.
  unfold Led_of_Z, constant_of. cbn.
  repeat (case_decide; cbn); done || lia.
Qed.

Lemma LedState_of_Z_cases (v : Z) :
  LedState_of_Z v
  = if decide (v = 0) then Some On
    else if decide (v = 1) then Some Off
    else None.
Proof.
  unfold LedState_of_Z, constant_of. cbn.
  repeat (case_decide; cbn); done || lia.
Qed.

Lemma Led_of_Z_inverse (v : Z) (l : Led) :
  Led_of_Z v = Some l ↔ Led_to_Z l = Some v.
Proof.
  rewrite Led_of_Z_cases.
  destruct l; repeat case_decide; subst; split; intros [=]; done || lia.
Qed.

Lemma LedState_of_Z_inverse (v : Z) (s : LedState) :
  LedState_of_Z v = Some s ↔ LedState_to_Z s = Some v.
Proof.
  rewrite LedState_of_Z_cases.
  destruct s; repeat case_decide; subst; split; intros [=]; done || lia.
Qed.

Lemma Led_of_Z_defined (v : Z) : is_Some (Led_of_Z v) ↔ 0 ≤ v ≤ 3.
Proof.
  rewrite Led_of_Z_cases.
  repeat case_decide; subst; split; intros Hv; try lia; eauto;
    by destruct Hv.
Qed.

Lemma LedState_of_Z_defined (v : Z) : is_Some (LedState_of_Z v) ↔ 0 ≤ v ≤ 1.
Proof.
  rewrite LedState_of_Z_cases.
  repeat case_decide; subst; split; intros Hv; try lia; eauto;
    by destruct Hv.
Qed.

(** X1. An integer is the value of an [Led] enumerator exactly when it
    lies in 0 .. 3, and reading an integer as an [Led] inverts taking the
    value of an [Led]: distinct enumerators never share a value. *)
Theorem Led_values_roundtrip :
  (∀ (v : Z) (l : Led), Led_of_Z v = Some l ↔ Led_to_Z l = Some v)
  ∧ (∀ v : Z, is_Some (Led_of_Z v) ↔ 0 ≤ v ≤ 3)
  ∧ (∀ l1 l2 : Led, Led_to_Z l1 = Led_to_Z l2 → l1 = l2).
Proof.
  split; [exact Led_of_Z_inverse|]. split; [exact Led_of_Z_defined|].
  intros l1 l2 Heq.
  assert (is_Some (Led_to_Z l1)) as [v Hv] by (destruct l1; eauto).
  assert (Led_of_Z v = Some l1) as H1 by by apply Led_of_Z_inverse.
  assert (Led_of_Z v = Some l2) as H2
    by (apply Led_of_Z_inverse; congruence).
  congruence.
Qed.

(** X2. An integer is the value of an [LedState] enumerator exactly when
    it is 0 or 1, and reading an integer as an [LedState] inverts taking
    the value of an [LedState]. *)
Theorem LedState_values_roundtrip :
  (∀ (v : Z) (s : LedState),
     LedState_of_Z v = Some s ↔ LedState_to_Z s = Some v)
  ∧ (∀ v : Z, is_Some (LedState_of_Z v) ↔ 0 ≤ v ≤ 1)
  ∧ (∀ s1 s2 : LedState, LedState_to_Z s1 = LedState_to_Z s2 → s1 = s2).
Proof.
  split; [exact LedState_of_Z_inverse|].
  split; [exact LedState_of_Z_defined|].
  intros s1 s2 Heq.
  assert (is_Some (LedState_to_Z s1)) as [v Hv] by (destruct s1; eauto).
  assert (LedState_of_Z v = Some s1) as H1
    by by apply LedState_of_Z_inverse.
  assert (LedState_of_Z v = Some s2) as H2
    by (apply LedState_of_Z_inverse; congruence).
  congruence.
Qed.


(** ** The members of a [struct Command] object *)

(** C9, as stated, fails: an object with [success == false] can hold 7 in
    [led] and 2 in [state], which are values of no enumerator. *)
Lemma Command_object_outside_enumerations :
  success_v (mkObject false 7 2) = false
  ∧ Led_of_Z (led_v (mkObject false 7 2)) = None
  ∧ LedState_of_Z (state_v (mkObject false 7 2)) = None
  ∧ ¬ (∀ o : Command_object,
         is_Some (Led_of_Z (led_v o)) ∧ is_Some (LedState_of_Z (state_v o))).
Proof.
  split_and!; try reflexivity.
  intros Hall. destruct (Hall (mkObject false 7 2)) as [[l Hl] _].
  discriminate Hl.
Qed.

(** C9, amended. Every [Command] object, failed ones included, carries an
    [led] and a [state] member; they hold enumerators exactly when [led]
    is in 0 .. 3 and [state] in 0 .. 1, which the type does not enforce;
    nor does it tie the members to [success]: every pair of enumerators
    occurs in an object with either value of [success]. *)
Theorem Command_object_members :
  (∀ o : Command_object,
     is_Some (read_Command o) ↔ 0 ≤ led_v o ≤ 3 ∧ 0 ≤ state_v o ≤ 1)
  ∧ (∀ (o : Command_object) (c : Command),
       read_Command o = Some c →
       success c = success_v o
       ∧ Led_to_Z (led c) = Some (led_v o)
       ∧ LedState_to_Z (state c) = Some (state_v o))
  ∧ (∀ (b : bool) (l : Led) (s : LedState),
       ∃ o : Command_object,
         success_v o = b ∧ read_Command o = Some (mkCommand b l s)).
Proof.
  split; [|split].
  - intros [b l s]. unfold read_Command. cbn [led_v state_v success_v].
    rewrite <- (Led_of_Z_defined l), <- (LedState_of_Z_defined s).
    destruct (Led_of_Z l), (LedState_of_Z s); cbn [mbind option_bind];
      (split; [intros Hc | intros (Hl & Hs)]);
      solve [ eauto | by destruct Hc | by destruct Hl | by destruct Hs ].
  - intros [b l s] c. unfold read_Command. cbn [led_v state_v success_v].
    destruct (Led_of_Z l) as [l'|] eqn:Hl; cbn [mbind option_bind]; [|done].
    destruct (LedState_of_Z s) as [s'|] eqn:Hs; cbn [mbind option_bind];
      [|done].
    intros [= <-]. cbn [success led state].
    by rewrite <- Led_of_Z_inverse, <- LedState_of_Z_inverse.
  - intros b l s.
    assert (is_Some (Led_to_Z l)) as [vl Hl] by (destruct l; eauto).
    assert (is_Some (LedState_to_Z s)) as [vs Hs] by (destruct s; eauto).
    exists (mkObject b vl vs). split; [done|].
    apply Led_of_Z_inverse in Hl. apply LedState_of_Z_inverse in Hs.
    unfold read_Command. cbn [led_v state_v success_v].
    by rewrite Hl, Hs.
Qed.
